(** * cookies.py: the scalar encoding of cookie values

    A shallow embedding of the encoding core of [cookies.py]
    ([encode], [get_probability], [arithmetic_encode], the module-level
    [cache] and the per-file loop of [parse]), of the request loop of
    [get_cookies], of the argument handling of [main] and of the names
    [draw] derives, together with the properties the specification
    states about them.

    Python's [float] is IEEE 754 binary64.  The functions below are
    written over an interface [Arith] of the float operations the source
    uses; [binary64] (Rocq's primitive floats) is the arithmetic CPython
    performs.  What does not depend on how the operations round is proved
    for every instance of the interface, binary64 included. *)

From Stdlib Require Import ZArith QArith Lqa Floats Uint63 Ascii String.
From stdpp Require Import gmap strings list.

Local Open Scope nat_scope.
#[local] Set Warnings "-clear-no-such-hyp".

(** ** Arithmetic *)

Class Arith := {
  num : Type;
  of_int : Z -> num;      (* int -> float conversion, for [1], [10], counts *)
  half : num;             (* the literal [0.5] *)
  add : num -> num -> num;
  sub : num -> num -> num;
  mul : num -> num -> num;
  div : num -> num -> num }.

(** binary64.  [of_int] goes through a 63-bit machine integer, which is
    exact for 0 <= z < 2^53: the literals 0, 1 and 10 and every
    character count or length of a string that fits in memory. *)
Definition binary64 : Arith := {|
  num := PrimFloat.float;
  of_int := fun z => PrimFloat.of_uint63 (Uint63.of_Z z);
  half := 0.5%float;
  add := PrimFloat.add;
  sub := PrimFloat.sub;
  mul := PrimFloat.mul;
  div := PrimFloat.div |}.

(** ** Python values, exceptions and loops *)

(** A [str] is its sequence of characters.  Characters are taken as
    bytes; the code only compares them for equality and uses them as dict
    keys. *)
Abbreviation str := (list ascii).

Definition str_of (s : string) : str := list_ascii_of_string s.

Inductive exn := ZeroDivisionError | KeyError | IndexError.

Inductive result (A : Type) :=
| Ok (a : A)
| Raise (e : exn).
Arguments Ok {A} a.
Arguments Raise {A} e.

#[global] Instance result_bind : MBind result := fun _ _ k r =>
  match r with
  | Ok a => k a
  | Raise e => Raise e
  end.

(** [for x in xs: s = body(s, x)], stopping at the first exception. *)
Fixpoint for_each {X S} (body : S -> X -> result S) (xs : list X) (s : S)
  : result S :=
  match xs with
  | [] => Ok s
  | x :: xs' => s' ← body s x; for_each body xs' s'
  end.

(** [list.insert(i, x)]: an index past the end appends. *)
Definition list_insert_at {X} (i : nat) (x : X) (l : list X) : list X :=
  take i l ++ x :: drop i l.

(** ** collections.Counter *)

(** [Counter(cookie)] is a dict, so it keeps its keys in the order they
    were first inserted: counting a character already present bumps its
    count in place, a new one goes to the end. *)
Fixpoint bump (char : ascii) (counts : list (ascii * nat))
  : list (ascii * nat) :=
  match counts with
  | [] => [(char, 1)]
  | (d, n) :: rest =>
      if bool_decide (char = d) then (d, S n) :: rest
      else (d, n) :: bump char rest
  end.

Definition Counter (cookie : str) : list (ascii * nat) :=
  fold_left (fun counts char => bump char counts) cookie [].

(** The loop of [Counter], from any intermediate dict. *)
Definition count_from (counts : list (ascii * nat)) (cookie : str) :=
  fold_left (fun counts char => bump char counts) cookie counts.

(** The sum of the counts, [sum(char_count.values())]. *)
Definition total_count (counts : list (ascii * nat)) : nat :=
  foldr (fun item acc => snd item + acc) 0 counts.

Section Encoder.
Context {A : Arith}.

Definition zero : num := of_int 0.
Definition one : num := of_int 1.
Definition ten : num := of_int 10.

(** The objects the module-level list [cache] holds. *)
Inductive pyobj :=
| PyStr (s : str)
| PyFloat (x : num).

(** [cookie == obj] for a [str] cookie: a float never equals a string. *)
Definition str_eq (cookie : str) (obj : pyobj) : bool :=
  match obj with
  | PyStr s => bool_decide (cookie = s)
  | PyFloat _ => false
  end.

(** [count / total_chars] on two ints. *)
Definition truediv (count total_chars : nat) : result num :=
  if Nat.eqb total_chars 0 then Raise ZeroDivisionError
  else Ok (div (of_int (Z.of_nat count)) (of_int (Z.of_nat total_chars))).

(** ** get_probability *)

(** One iteration of [for char, count in char_count.items()]; the loop
    state is the cursor [start] and the dict, which is updated in place. *)
Definition probability_step (total_chars : nat)
    (st : num * gmap ascii (num * num)) (item : ascii * nat)
  : result (num * gmap ascii (num * num)) :=
  let '(start, probabilities) := st in
  let '(char, count) := item in
  probability ← truediv count total_chars;
  let end_ := add start probability in
  match probabilities !! char with
  | Some (old_start, old_end) =>
      let new_start := add start (mul old_start (sub end_ start)) in
      let new_end := add start (mul old_end (sub end_ start)) in
      Ok (end_, <[char := (new_start, new_end)]> probabilities)
  | None => Ok (end_, <[char := (start, end_)]> probabilities)
  end.

Definition get_probability (cookie : str) (probabilities : gmap ascii (num * num))
  : result (gmap ascii (num * num)) :=
  let char_count := Counter cookie in
  let total_chars := length cookie in
  st ← for_each (probability_step total_chars) char_count (zero, probabilities);
  Ok (snd st).

(** ** arithmetic_encode *)

(** One iteration of [for char in cookie]; the loop state is
    [(interval_start, interval_size)]. *)
Definition narrow_step (probabilities : gmap ascii (num * num))
    (st : num * num) (char : ascii) : result (num * num) :=
  let '(interval_start, interval_size) := st in
  match probabilities !! char with
  | None => Raise KeyError
  | Some char_range =>
      Ok (add interval_start (mul interval_size (fst char_range)),
          mul interval_size (sub (snd char_range) (fst char_range)))
  end.

(** The interval the loop of [arithmetic_encode] ends with. *)
Definition narrow (cookie : str) (probabilities : gmap ascii (num * num))
  : result (num * num) :=
  for_each (narrow_step probabilities) cookie (zero, one).

Definition midpoint (st : num * num) : num :=
  add (fst st) (mul half (snd st)).

Definition arithmetic_encode (cookie : str) (probabilities : gmap ascii (num * num))
  : result num :=
  st ← narrow cookie probabilities;
  Ok (mul (sub one (midpoint st)) ten).

(** ** encode *)

(** [encode(cookie, probabilities)].  Besides the returned object the
    result carries the two objects the call mutates: the caller's dict
    and the module-level list [cache]. *)
Definition encode (cookie : str) (probabilities : gmap ascii (num * num))
    (cache : list pyobj)
  : result (pyobj * gmap ascii (num * num) * list pyobj) :=
  let miss :=
    probabilities' ← get_probability cookie probabilities;
    encoded_value ← arithmetic_encode cookie probabilities';
    let cache' := list_insert_at 0 (PyStr cookie) cache in
    let cache'' := list_insert_at 1 (PyFloat encoded_value) cache' in
    Ok (PyFloat encoded_value, probabilities', cache'') in
  match cache with
  | [] => miss
  | first :: _ =>
      if str_eq cookie first then
        match cache !! 1 with
        | Some value => Ok (value, probabilities, cache)
        | None => Raise IndexError
        end
      else miss
  end.

(** The statements of [encode] after the cache test, with the two
    [insert] calls written as the list they produce. *)
Definition encode_miss (cookie : str) (probabilities : gmap ascii (num * num))
    (cache : list pyobj)
  : result (pyobj * gmap ascii (num * num) * list pyobj) :=
  probabilities' ← get_probability cookie probabilities;
  encoded_value ← arithmetic_encode cookie probabilities';
  Ok (PyFloat encoded_value, probabilities',
      PyStr cookie :: PyFloat encoded_value :: cache).

(** The shape the cache has whenever [encode] is entered: cookies and
    their encoded values, in pairs, newest first. *)
Inductive paired : list pyobj -> Prop :=
| paired_nil : paired []
| paired_cons cookie x older :
    paired older -> paired (PyStr cookie :: PyFloat x :: older).

(** ** parse and the worker process *)

(** The loop [for row in reader: newdata.append(encode(row[1], probabilities))]
    of [parse], on the column of cookie values of one file. *)
Fixpoint encode_rows (rows : list str) (probabilities : gmap ascii (num * num))
    (cache : list pyobj) : result (list pyobj * list pyobj) :=
  match rows with
  | [] => Ok ([], cache)
  | cookie :: rows' =>
      '(value, probabilities', cache') ← encode cookie probabilities cache;
      '(newdata, cache'') ← encode_rows rows' probabilities' cache';
      Ok (value :: newdata, cache'')
  end.

(** [parse(filename)]: a new dict per file, the module's [cache] as it is. *)
Definition parse (rows : list str) (cache : list pyobj)
  : result (list pyobj * list pyobj) :=
  encode_rows rows ∅ cache.

(** The files one pool worker is handed, parsed one after the other in
    the same process, hence with the same module-level [cache]. *)
Fixpoint worker (files : list (list str)) (cache : list pyobj)
  : result (list (list pyobj) * list pyobj) :=
  match files with
  | [] => Ok ([], cache)
  | rows :: files' =>
      '(newdata, cache') ← parse rows cache;
      '(others, cache'') ← worker files' cache';
      Ok (newdata :: others, cache'')
  end.

(** The slots [(start, end)] the loop of [get_probability] walks through,
    one per item of the counter, from a given cursor. *)
Fixpoint item_slots (total_chars : nat) (items : list (ascii * nat)) (start : num)
  : list (ascii * (num * num)) :=
  match items with
  | [] => []
  | (char, count) :: rest =>
      let end_ :=
        add start (div (of_int (Z.of_nat count)) (of_int (Z.of_nat total_chars))) in
      (char, (start, end_)) :: item_slots total_chars rest end_
  end.

(** The dict after a history of updates, from the empty dict of [parse]. *)
Definition update_all (history : list str) (probabilities : gmap ascii (num * num))
  : result (gmap ascii (num * num)) :=
  for_each (fun p cookie => get_probability cookie p) history probabilities.

End Encoder.

Arguments pyobj A : clear implicits.

(** ** The update as the specification words it *)

(** The distinct characters of a string in the order they are first met. *)
Fixpoint first_seen (seen : list ascii) (cookie : str) : list ascii :=
  match cookie with
  | [] => []
  | c :: rest =>
      if bool_decide (c ∈ seen) then first_seen seen rest
      else c :: first_seen (c :: seen) rest
  end.

Definition distinct_chars (cookie : str) : list ascii := first_seen [] cookie.

Definition occurrences (char : ascii) (cookie : str) : nat :=
  length (filter (fun c => c = char) cookie).

(** Lookup in an association list, first match. *)
Fixpoint assoc {V} (char : ascii) (l : list (ascii * V)) : option V :=
  match l with
  | [] => None
  | (d, v) :: rest => if bool_decide (char = d) then Some v else assoc char rest
  end.

Section Spec.
Context {A : Arith}.

(** Steps 2 to 4 and 7: the cursor starts at the given value, and each
    distinct character takes [(start, end)] with [freq = count / total],
    [end = start + freq], the next one starting at [end]. *)
Fixpoint spec_slots (cookie : str) (chars : list ascii) (start : num)
  : list (ascii * (num * num)) :=
  match chars with
  | [] => []
  | c :: rest =>
      let freq :=
        div (of_int (Z.of_nat (occurrences c cookie)))
            (of_int (Z.of_nat (length cookie))) in
      let end_ := add start freq in
      (c, (start, end_)) :: spec_slots cookie rest end_
  end.

(** Steps 5 and 6: what a character with slot [(start, end)] is given,
    from the mapping before the update. *)
Definition spec_entry (old : option (num * num)) (slot : num * num)
  : num * num :=
  let '(start, end_) := slot in
  match old with
  | Some (old_start, old_end) =>
      (add start (mul old_start (sub end_ start)),
       add start (mul old_end (sub end_ start)))
  | None => (start, end_)
  end.

(** The mapping after the update, character by character. *)
Definition spec_update (cookie : str) (probabilities : gmap ascii (num * num))
    (char : ascii) : option (num * num) :=
  match assoc char (spec_slots cookie (distinct_chars cookie) zero) with
  | Some slot => Some (spec_entry (probabilities !! char) slot)
  | None => probabilities !! char
  end.

(** The sum of [hi - lo] over the distinct characters of a string. *)
Definition span_sum (cookie : str) (probabilities : gmap ascii (num * num))
  : num :=
  fold_left
    (fun acc c =>
       match probabilities !! c with
       | Some (lo, hi) => add acc (sub hi lo)
       | None => acc
       end)
    (distinct_chars cookie) zero.

End Spec.

(** ** Further notions used to describe the encoder *)

Section Shapes.
Context {A : Arith}.

(** Intervals that follow one another from [a]: each starts at the very
    value the one before ends at. *)
Fixpoint chained (a : num) (ivs : list (num * num)) : Prop :=
  match ivs with
  | [] => True
  | (lo, hi) :: rest => lo = a /\ chained hi rest
  end.

(** A result of [encode] or of the loop of [parse] with further elements
    put behind its cache. *)
Definition behind {X} (older : list (pyobj A))
    (r : result (X * list (pyobj A))) : result (X * list (pyobj A)) :=
  '(x, cache) ← r; Ok (x, cache ++ older).

End Shapes.

(** ** main: the number of requests and the payload *)

(** Step 3 of [main].  [args.requests] is [None] when the option is not
    given and an int otherwise; [if args.requests:] is false for [None]
    and for 0. *)
Definition requests_to_make (args_requests : option Z) : Z :=
  let reqs := 50%Z in
  match args_requests with
  | None => reqs
  | Some requests =>
      if (requests =? 0)%Z then reqs
      else if ((requests <? 10) || (200 <? requests))%Z then 50%Z
      else requests
  end.








(** ** get_cookies: the files written *)

(** [path = domain + '_' + timestamp + '/'] *)
Definition output_path (domain timestamp : str) : str :=
  domain ++ str_of "_" ++ timestamp ++ str_of "/".

(** [filename = path + key + '.csv'] *)
Definition csv_filename (path key : str) : str := path ++ key ++ str_of ".csv".

Section GetCookies.
(** The values [datetime.now()] returns. *)
Context {datetime : Type}.

(** The body of [for key, value in cookies.items()]: the file name is
    recorded in [c_files] unless it is there, and the row
    [[datetime.now(), value]] is appended to the file, which is created
    when it does not exist.  An item carries the time read at its write.
    The state is the module-level list [c_files] and the files on disk. *)
Definition write_cookie (path : str)
    (st : list str * gmap str (list (datetime * str)))
    (item : str * str * datetime)
  : list str * gmap str (list (datetime * str)) :=
  let '(c_files, files) := st in
  let '(key, value, now) := item in
  let filename := csv_filename path key in
  let c_files' :=
    if bool_decide (filename ∈ c_files) then c_files else c_files ++ [filename] in
  (c_files', <[filename := default [] (files !! filename) ++ [(now, value)]]> files).

(** The loop [for x in range(reqs)] of [get_cookies], given the cookies
    each session ended with; requests that raise are left out. *)
Definition get_cookies_loop (path : str)
    (responses : list (list (str * str * datetime)))
    (st : list str * gmap str (list (datetime * str)))
  : list str * gmap str (list (datetime * str)) :=
  fold_left (fun st cookies => fold_left (write_cookie path) cookies st) responses st.

(** The rows written for one cookie name, in the order they are written. *)
Definition rows_of (key : str) (responses : list (list (str * str * datetime)))
  : list (datetime * str) :=
  omap (fun item : str * str * datetime =>
          let '(k, value, now) := item in
          if bool_decide (k = key) then Some (now, value) else None)
       (concat responses).

End GetCookies.

(** ** draw: the names derived from the file name *)

(** [filename[:-4]] *)
Definition without_suffix (filename : str) : str :=
  take (length filename - 4) filename.

(** [imagefile = filename[:-4] + '.png'] *)
Definition imagefile (filename : str) : str :=
  without_suffix filename ++ str_of ".png".

(** [s.split(sep)] for a one-character separator. *)
Fixpoint split (sep : ascii) (s : str) : list str :=
  match s with
  | [] => [[]]
  | c :: rest =>
      if bool_decide (c = sep) then [] :: split sep rest
      else match split sep rest with
           | piece :: pieces => (c :: piece) :: pieces
           | [] => [[c]]
           end
  end.

(** The title [f"{filename[:-4].split('/')[1]} Values Over Time"]. *)
Definition title (filename : str) : result str :=
  match split "/"%char (without_suffix filename) !! 1 with
  | Some name => Ok (name ++ str_of " Values Over Time")
  | None => Raise IndexError
  end.

(** * Counter *)

Section CounterFacts.

Lemma bump_keys char counts x :
  x ∈ (bump char counts).*1 <-> x = char \/ x ∈ counts.*1.
Proof.
  induction counts as [|[d n] rest IH]; simpl.
  - set_solver.
  - case_bool_decide; simpl; set_solver.
Qed.

Lemma bump_NoDup char counts :
  NoDup counts.*1 -> NoDup (bump char counts).*1.
Proof.
  induction counts as [|[d n] rest IH]; simpl; intros Hnd.
  - apply NoDup_singleton.
  - apply NoDup_cons in Hnd as [Hd Hrest].
    case_bool_decide as Hcd; simpl; apply NoDup_cons; split; auto.
    rewrite bump_keys. intros [Heq|Hin]; [by subst|done].
Qed.

Lemma bump_total char counts :
  total_count (bump char counts) = S (total_count counts).
Proof.
  induction counts as [|[d n] rest IH]; simpl; [done|].
  case_bool_decide; simpl; lia.
Qed.

Lemma bump_positive char counts :
  Forall (fun item => 0 < snd item) counts ->
  Forall (fun item => 0 < snd item) (bump char counts).
Proof.
  induction 1 as [|[d n] rest Hn Hrest IH]; simpl.
  - repeat constructor.
  - case_bool_decide; constructor; simpl in *; auto; lia.
Qed.

Lemma bump_present char counts :
  char ∈ counts.*1 ->
  NoDup counts.*1 ->
  bump char counts =
    (fun item => (fst item, if bool_decide (fst item = char) then S (snd item) else snd item))
      <$> counts.
Proof.
  induction counts as [|[d n] rest IH]; simpl; intros Hin Hnd.
  - set_solver.
  - apply NoDup_cons in Hnd as [Hd Hrest].
    case_bool_decide as Hcd.
    + subst d. rewrite bool_decide_eq_true_2 by done. f_equal.
      clear IH Hin. induction rest as [|[e k] rest IH]; simpl; [done|].
      simpl in *. apply NoDup_cons in Hrest as [? ?].
      rewrite bool_decide_eq_false_2 by set_solver.
      f_equal. apply IH; set_solver.
    + rewrite bool_decide_eq_false_2 by congruence.
      f_equal. apply IH; set_solver.
Qed.

Lemma bump_absent char counts :
  char ∉ counts.*1 -> bump char counts = counts ++ [(char, 1)].
Proof.
  induction counts as [|[d n] rest IH]; simpl; intros Hnin; [done|].
  rewrite bool_decide_eq_false_2 by set_solver.
  f_equal. apply IH. set_solver.
Qed.

Lemma count_from_keys cookie : forall counts x,
  x ∈ (count_from counts cookie).*1 <-> x ∈ cookie \/ x ∈ counts.*1.
Proof.
  induction cookie as [|c rest IH]; intros counts x; simpl.
  - set_solver.
  - rewrite IH, bump_keys. set_solver.
Qed.

Lemma count_from_NoDup cookie : forall counts,
  NoDup counts.*1 -> NoDup (count_from counts cookie).*1.
Proof.
  induction cookie as [|c rest IH]; intros counts Hnd; simpl; [done|].
  apply IH, bump_NoDup, Hnd.
Qed.

Lemma count_from_total cookie : forall counts,
  total_count (count_from counts cookie) = total_count counts + length cookie.
Proof.
  induction cookie as [|c rest IH]; intros counts; simpl; [lia|].
  rewrite IH, bump_total. lia.
Qed.

Lemma count_from_positive cookie : forall counts,
  Forall (fun item => 0 < snd item) counts ->
  Forall (fun item => 0 < snd item) (count_from counts cookie).
Proof.
  induction cookie as [|c rest IH]; intros counts Hpos; simpl; [done|].
  apply IH, bump_positive, Hpos.
Qed.

Lemma Counter_keys cookie x : x ∈ (Counter cookie).*1 <-> x ∈ cookie.
Proof. unfold Counter. rewrite (count_from_keys cookie [] x). set_solver. Qed.

Lemma Counter_NoDup cookie : NoDup (Counter cookie).*1.
Proof. apply (count_from_NoDup cookie []). constructor. Qed.

Lemma Counter_total cookie : total_count (Counter cookie) = length cookie.
Proof. apply (count_from_total cookie []). Qed.

Lemma Counter_positive cookie :
  Forall (fun item => 0 < snd item) (Counter cookie).
Proof. apply (count_from_positive cookie []). constructor. Qed.

(** *** The keys are the distinct characters in first-met order, the
    counts their numbers of occurrences. *)

Lemma first_seen_ext cookie : forall seen1 seen2,
  (forall x, x ∈ seen1 <-> x ∈ seen2) ->
  first_seen seen1 cookie = first_seen seen2 cookie.
Proof.
  induction cookie as [|c rest IH]; intros seen1 seen2 Hext; simpl; [done|].
  rewrite (bool_decide_ext (c ∈ seen1) (c ∈ seen2)) by apply Hext.
  case_bool_decide; [by apply IH|].
  f_equal. apply IH. set_solver.
Qed.

Lemma first_seen_elem cookie : forall seen x,
  x ∈ first_seen seen cookie <-> x ∈ cookie /\ x ∉ seen.
Proof.
  induction cookie as [|c rest IH]; intros seen x; simpl.
  - set_solver.
  - case_bool_decide.
    + rewrite IH. set_solver.
    + rewrite elem_of_cons, IH. destruct (decide (x = c)); set_solver.
Qed.

Lemma first_seen_NoDup cookie : forall seen, NoDup (first_seen seen cookie).
Proof.
  induction cookie as [|c rest IH]; intros seen; simpl; [constructor|].
  case_bool_decide; [apply IH|].
  apply NoDup_cons; split; [|apply IH].
  rewrite first_seen_elem. set_solver.
Qed.

Lemma occurrences_cons_eq c cookie :
  occurrences c (c :: cookie) = S (occurrences c cookie).
Proof. unfold occurrences. by rewrite filter_cons_True. Qed.

Lemma occurrences_cons_ne c d cookie :
  c <> d -> occurrences c (d :: cookie) = occurrences c cookie.
Proof. intros Hne. unfold occurrences. rewrite filter_cons_False; [done|congruence]. Qed.

Lemma bump_present_keys char counts :
  char ∈ counts.*1 -> (bump char counts).*1 = counts.*1.
Proof.
  induction counts as [|[d n] rest IH]; simpl; intros Hin; [set_solver|].
  case_bool_decide as Hcd; simpl; [done|].
  f_equal. apply IH. set_solver.
Qed.

Lemma count_from_spec cookie : forall counts,
  NoDup counts.*1 ->
  count_from counts cookie =
    ((fun item => (fst item, snd item + occurrences (fst item) cookie)) <$> counts)
    ++ ((fun c => (c, occurrences c cookie)) <$> first_seen counts.*1 cookie).
Proof.
  induction cookie as [|c rest IH]; intros counts Hnd; simpl.
  - rewrite app_nil_r. symmetry. rewrite <- (list_fmap_id counts) at 2.
    apply list_fmap_ext. intros i [d n] _. simpl. f_equal. unfold occurrences. simpl. lia.
  - rewrite IH by (by apply bump_NoDup).
    case_bool_decide as Hin.
    + rewrite bump_present_keys by done.
      rewrite bump_present by done.
      rewrite <- list_fmap_compose. f_equal.
      * apply list_fmap_ext. intros i [d n] _. simpl.
        case_bool_decide as Hd.
        -- subst d. rewrite occurrences_cons_eq. f_equal. lia.
        -- rewrite occurrences_cons_ne by done. done.
      * apply list_fmap_ext. intros i d Hd. simpl.
        apply list_elem_of_lookup_2, first_seen_elem in Hd as [_ Hd].
        rewrite occurrences_cons_ne; [done|]. intros ->. done.
    + rewrite bump_absent by done.
      rewrite !fmap_app, <- app_assoc. simpl. f_equal.
      * apply list_fmap_ext. intros i [d n] Hd. simpl.
        rewrite occurrences_cons_ne; [done|].
        intros ->. apply Hin. apply list_elem_of_lookup_2 in Hd.
        apply list_elem_of_fmap. by exists (c, n).
      * rewrite occurrences_cons_eq. f_equal.
        rewrite (first_seen_ext rest (counts.*1 ++ [c]) (c :: counts.*1)).
        -- apply list_fmap_ext. intros i d Hd. simpl.
           apply list_elem_of_lookup_2, first_seen_elem in Hd as [_ Hd].
           rewrite occurrences_cons_ne; [done|]. set_solver.
        -- intros x. set_solver.
Qed.

Lemma Counter_spec cookie :
  Counter cookie = (fun c => (c, occurrences c cookie)) <$> distinct_chars cookie.
Proof. apply (count_from_spec cookie []). constructor. Qed.

End CounterFacts.

(** * The encoder, in any arithmetic *)

Section EncoderFacts.
Context {A : Arith}.

Implicit Types (probabilities : gmap ascii (num * num)) (cache : list (pyobj A)).

Lemma assoc_None {V} c (l : list (ascii * V)) : c ∉ l.*1 -> assoc c l = None.
Proof.
  induction l as [|[d v] rest IH]; simpl; intros Hnin; [done|].
  rewrite bool_decide_eq_false_2 by set_solver. apply IH. set_solver.
Qed.

Lemma assoc_is_Some {V} c (l : list (ascii * V)) : c ∈ l.*1 -> is_Some (assoc c l).
Proof.
  induction l as [|[d v] rest IH]; simpl; intros Hin; [set_solver|].
  case_bool_decide; [by eexists|]. apply IH. set_solver.
Qed.

Lemma item_slots_keys total items : forall start,
  (item_slots total items start).*1 = items.*1.
Proof.
  induction items as [|[c n] rest IH]; intros start; simpl; [done|].
  f_equal. apply IH.
Qed.

Lemma item_slots_spec cookie chars : forall start,
  item_slots (length cookie) ((fun c => (c, occurrences c cookie)) <$> chars) start
  = spec_slots cookie chars start.
Proof.
  induction chars as [|c rest IH]; intros start; simpl; [done|].
  f_equal. apply IH.
Qed.

Lemma assoc_Forall2 {V} (f : ascii -> option V) (l : list (ascii * V)) :
  NoDup l.*1 ->
  (forall c, c ∈ l.*1 -> f c = assoc c l) ->
  Forall2 (fun c v => f c = Some v) l.*1 l.*2.
Proof.
  induction l as [|[d v] rest IH]; simpl; intros Hnd Hf; [constructor|].
  apply NoDup_cons in Hnd as [Hd Hrest].
  constructor.
  - rewrite Hf by set_solver. by rewrite bool_decide_eq_true_2.
  - apply IH; [done|]. intros c Hc. rewrite Hf by set_solver.
    rewrite bool_decide_eq_false_2; [done|]. intros ->. done.
Qed.

(** The loop of [get_probability]: it never raises, and every character
    of the counter is given its entry from the dict as it was before the
    loop, the others keeping theirs. *)
Lemma probability_loop total items : forall start probabilities,
  NoDup items.*1 ->
  total <> 0 ->
  exists end_ probabilities',
    for_each (probability_step total) items (start, probabilities)
      = Ok (end_, probabilities') /\
    forall c,
      probabilities' !! c =
        match assoc c (item_slots total items start) with
        | Some slot => Some (spec_entry (probabilities !! c) slot)
        | None => probabilities !! c
        end.
Proof.
  induction items as [|[char count] rest IH]; intros start probabilities Hnd Htotal.
  - exists start, probabilities. split; [done|]. intros c. done.
  - simpl in Hnd. apply NoDup_cons in Hnd as [Hchar Hrest].
    simpl. unfold truediv.
    destruct (Nat.eqb_spec total 0) as [|_]; [done|]. simpl.
    set (end_ := add start _).
    set (entry := spec_entry (probabilities !! char) (start, end_)).
    destruct (IH end_ (<[char := entry]> probabilities) Hrest Htotal)
      as (e & p' & Hloop & Hlookup).
    exists e, p'. split.
    { unfold entry, spec_entry in Hloop.
      destruct (probabilities !! char) as [[old_start old_end]|]; exact Hloop. }
    intros c. rewrite Hlookup.
    case_bool_decide as Hc.
    + subst c. rewrite assoc_None by (by rewrite item_slots_keys).
      by rewrite lookup_insert_eq.
    + rewrite lookup_insert_ne by done. done.
Qed.

(** [get_probability] returns, and what it returns is the mapping the
    specification describes. *)
Lemma get_probability_spec cookie probabilities :
  exists probabilities',
    get_probability cookie probabilities = Ok probabilities' /\
    forall c, probabilities' !! c = spec_update cookie probabilities c.
Proof.
  unfold get_probability, spec_update.
  destruct cookie as [|c0 rest].
  - exists probabilities. split; [done|]. intros c. done.
  - destruct (probability_loop (length (c0 :: rest)) (Counter (c0 :: rest)) zero
                probabilities (Counter_NoDup _)) as (e & p' & Hloop & Hlookup);
      [done|].
    exists p'. rewrite Hloop. split; [done|]. intros c.
    rewrite Hlookup, Counter_spec, item_slots_spec. done.
Qed.

(** After the update every character of the cookie has an entry. *)
Lemma get_probability_covers cookie probabilities probabilities' c :
  get_probability cookie probabilities = Ok probabilities' ->
  c ∈ cookie -> is_Some (probabilities' !! c).
Proof.
  intros Hget Hin.
  destruct (get_probability_spec cookie probabilities) as (p' & Hget' & Hlookup).
  rewrite Hget in Hget'. injection Hget' as <-.
  rewrite Hlookup. unfold spec_update.
  destruct (assoc_is_Some c (spec_slots cookie (distinct_chars cookie) zero))
    as [slot ->]; [|by eexists].
  rewrite <- item_slots_spec, item_slots_keys, <- Counter_spec.
  by apply Counter_keys.
Qed.

(** The loop of [arithmetic_encode] raises no [KeyError] on a dict that
    has all the characters. *)
Lemma narrow_loop_total probabilities cookie : forall st,
  (forall c, c ∈ cookie -> is_Some (probabilities !! c)) ->
  exists st', for_each (narrow_step probabilities) cookie st = Ok st'.
Proof.
  induction cookie as [|c rest IH]; intros [istart isize] Hall; simpl.
  - by eexists.
  - destruct (Hall c) as [range Hrange]; [set_solver|].
    rewrite Hrange. simpl. apply IH. intros d Hd. apply Hall. set_solver.
Qed.

(** [arithmetic_encode] on the dict [get_probability] has just updated
    for the same cookie returns a float. *)
Lemma arithmetic_encode_total cookie probabilities probabilities' :
  get_probability cookie probabilities = Ok probabilities' ->
  exists st,
    narrow cookie probabilities' = Ok st /\
    arithmetic_encode cookie probabilities'
      = Ok (mul (sub one (midpoint st)) ten).
Proof.
  intros Hget.
  destruct (narrow_loop_total probabilities' cookie (zero, one)) as [st Hst].
  { intros c. by apply get_probability_covers with probabilities. }
  exists st. unfold arithmetic_encode, narrow in *. by rewrite Hst.
Qed.

Lemma str_eq_true cookie obj : str_eq cookie obj = true -> obj = PyStr cookie.
Proof.
  destruct obj as [s|x]; simpl; [|done].
  intros Heq. apply bool_decide_eq_true in Heq. by subst.
Qed.

Lemma str_eq_refl cookie : str_eq cookie (PyStr cookie) = true.
Proof. simpl. by apply bool_decide_eq_true. Qed.

Lemma encode_unfold cookie probabilities cache :
  encode cookie probabilities cache =
    match cache with
    | [] => encode_miss cookie probabilities cache
    | first :: _ =>
        if str_eq cookie first then
          match cache !! 1 with
          | Some value => Ok (value, probabilities, cache)
          | None => Raise IndexError
          end
        else encode_miss cookie probabilities cache
    end.
Proof. by destruct cache. Qed.

Lemma encode_miss_total cookie probabilities cache :
  exists probabilities' st,
    get_probability cookie probabilities = Ok probabilities' /\
    narrow cookie probabilities' = Ok st /\
    encode_miss cookie probabilities cache
      = Ok (PyFloat (mul (sub one (midpoint st)) ten), probabilities',
            PyStr cookie :: PyFloat (mul (sub one (midpoint st)) ten) :: cache).
Proof.
  destruct (get_probability_spec cookie probabilities) as (p' & Hget & _).
  destruct (arithmetic_encode_total _ _ _ Hget) as (st & Hst & Henc).
  exists p', st. unfold encode_miss. rewrite Hget. simpl. rewrite Henc. done.
Qed.

(** The two ways [encode] returns. *)
Lemma encode_inv cookie probabilities cache value probabilities' cache' :
  encode cookie probabilities cache = Ok (value, probabilities', cache') ->
  (probabilities' = probabilities /\ cache' = cache /\
   exists older, cache = PyStr cookie :: value :: older)
  \/
  (exists x, value = PyFloat x /\
     get_probability cookie probabilities = Ok probabilities' /\
     arithmetic_encode cookie probabilities' = Ok x /\
     cache' = PyStr cookie :: PyFloat x :: cache).
Proof.
  rewrite encode_unfold.
  assert (encode_miss cookie probabilities cache = Ok (value, probabilities', cache') ->
          exists x, value = PyFloat x /\
            get_probability cookie probabilities = Ok probabilities' /\
            arithmetic_encode cookie probabilities' = Ok x /\
            cache' = PyStr cookie :: PyFloat x :: cache) as Hmiss.
  { unfold encode_miss.
    destruct (get_probability cookie probabilities) as [p1|]; simpl; [|done].
    destruct (arithmetic_encode cookie p1) as [x|] eqn:Henc; simpl; [|done].
    intros [= <- <- <-]. by exists x. }
  destruct cache as [|first rest]; [by right; apply Hmiss|].
  destruct (str_eq cookie first) eqn:Heq; [|by right; apply Hmiss].
  apply str_eq_true in Heq as ->.
  destruct rest as [|second older]; simpl; [done|].
  intros [= <- <- <-]. left. by eauto.
Qed.

(** The two ways [encode] returns, told apart by the front of the cache. *)
Lemma encode_front_inv cookie probabilities cache value probabilities' cache' :
  encode cookie probabilities cache = Ok (value, probabilities', cache') ->
  (head cache = Some (PyStr cookie) /\
   probabilities' = probabilities /\ cache' = cache /\
   exists older, cache = PyStr cookie :: value :: older)
  \/
  (head cache <> Some (PyStr cookie) /\
   exists x, value = PyFloat x /\ cache' = PyStr cookie :: PyFloat x :: cache).
Proof.
  rewrite encode_unfold.
  assert (encode_miss cookie probabilities cache = Ok (value, probabilities', cache') ->
          exists x, value = PyFloat x /\
            cache' = PyStr cookie :: PyFloat x :: cache) as Hmiss.
  { unfold encode_miss.
    destruct (get_probability cookie probabilities) as [p1|]; simpl; [|done].
    destruct (arithmetic_encode cookie p1) as [x|]; simpl; [|done].
    intros [= <- <- <-]. by exists x. }
  destruct cache as [|first rest]; [right; split; [done|by apply Hmiss]|].
  destruct (str_eq cookie first) eqn:Heq.
  - apply str_eq_true in Heq as ->.
    destruct rest as [|second older]; simpl; [done|].
    intros [= <- <- <-]. left. by eauto.
  - intros Hcall. right. split; [|by apply Hmiss].
    simpl. intros [= ->]. by rewrite str_eq_refl in Heq.
Qed.

(** Elements behind the first two of the cache are carried along. *)
Lemma encode_cache_tail cookie probabilities first second older :
  encode cookie probabilities (first :: second :: older)
  = behind older (encode cookie probabilities [first; second]).
Proof.
  rewrite !encode_unfold. unfold behind.
  destruct (str_eq cookie first); simpl; [done|].
  unfold encode_miss.
  destruct (get_probability cookie probabilities) as [p'|]; simpl; [|done].
  by destruct (arithmetic_encode cookie p') as [x|].
Qed.

(** No call of [encode] divides by zero: the division sits in a loop over
    the counted characters, and there are none when the length is 0. *)
Lemma encode_no_division_fault cookie probabilities cache :
  encode cookie probabilities cache <> Raise ZeroDivisionError.
Proof.
  rewrite encode_unfold.
  destruct (encode_miss_total cookie probabilities cache) as (p' & st & _ & _ & Hmiss).
  destruct cache as [|first rest]; [by rewrite Hmiss|].
  destruct (str_eq cookie first); [|by rewrite Hmiss].
  by destruct ((first :: rest) !! 1).
Qed.

(** From a cache of pairs [encode] raises nothing and returns a float,
    and the cache is again a cache of pairs. *)
Lemma encode_returns cookie probabilities cache :
  paired cache ->
  exists x probabilities' cache',
    encode cookie probabilities cache = Ok (PyFloat x, probabilities', cache') /\
    paired cache'.
Proof.
  intros Hpaired. rewrite encode_unfold.
  destruct (encode_miss_total cookie probabilities cache) as (p' & st & _ & _ & Hmiss).
  assert (paired (PyStr cookie :: PyFloat (mul (sub one (midpoint st)) ten) :: cache))
    as Hpaired' by (by constructor).
  destruct Hpaired as [|previous x older Holder]; [by eauto|].
  destruct (str_eq cookie (PyStr previous)); [|by eauto].
  simpl. exists x, probabilities, (PyStr previous :: PyFloat x :: older).
  split; [done|]. by constructor.
Qed.

(** So the loop of [parse] returns one float per row. *)
Lemma encode_rows_returns rows : forall probabilities cache,
  paired cache ->
  exists newdata cache',
    encode_rows rows probabilities cache = Ok (newdata, cache') /\
    length newdata = length rows /\
    Forall (fun value => exists x, value = PyFloat x) newdata /\
    paired cache'.
Proof.
  induction rows as [|cookie rest IH]; intros probabilities cache Hpaired.
  - exists [], cache. by repeat split.
  - destruct (encode_returns cookie probabilities cache Hpaired)
      as (x & p1 & c1 & Hcall & Hpaired1).
    destruct (IH p1 c1 Hpaired1) as (out & c2 & Hrest & Hlen & Hfloats & Hpaired2).
    exists (PyFloat x :: out), c2. simpl. rewrite Hcall. simpl. rewrite Hrest. simpl.
    split; [done|]. split; [by rewrite Hlen|]. split; [|done].
    constructor; [by eexists|done].
Qed.

End EncoderFacts.

(** * The specification's statements *)

Section AnyArithmetic.
Context {A : Arith}.

Implicit Types (probabilities : gmap ascii (num * num)) (cache : list (pyobj A)).

(** C3. Repeat short-circuit: when a call of [encode] on [cookie] has
    returned [value], leaving the dict [probabilities'] and the cache
    [cache'], the next call on the same [cookie] returns the very same
    [value] and leaves that dict (and the cache) as they are. *)
Theorem encode_repeat cookie probabilities cache value probabilities' cache' :
  encode cookie probabilities cache = Ok (value, probabilities', cache') ->
  encode cookie probabilities' cache' = Ok (value, probabilities', cache').
Proof.
  intros Hfirst.
  assert (exists older, cache' = PyStr cookie :: value :: older) as [older ->].
  { apply encode_inv in Hfirst as [(_ & -> & older & ->)|(x & -> & _ & _ & ->)];
      by eexists. }
  rewrite encode_unfold, str_eq_refl. done.
Qed.

(** C6, amended. After any call of [encode] that returns, the cache
    list begins with the cookie just seen and the value just returned.
    The call is a hit exactly when the cookie is the first element of the
    cache it finds: a hit leaves the list and the dict as they are; every
    other call, a miss, puts the new pair in front of everything the list
    held, removing nothing, so the earlier pairs stay behind it and the
    list grows by two.  Whatever lies behind the first two elements is
    never read: the call does with [first :: second :: older] what it
    does with [[first; second]], carrying [older] along. *)
Theorem cache_front cookie probabilities cache value probabilities' cache' :
  encode cookie probabilities cache = Ok (value, probabilities', cache') ->
  ((head cache = Some (PyStr cookie) /\
    cache' = cache /\ probabilities' = probabilities)
   \/
   (head cache <> Some (PyStr cookie) /\
    cache' = PyStr cookie :: value :: cache /\
    length cache' = S (S (length cache)))) /\
  (exists older, cache' = PyStr cookie :: value :: older) /\
  (forall first second older,
     cache = first :: second :: older ->
     encode cookie probabilities cache
     = behind older (encode cookie probabilities [first; second])).
Proof.
  intros Hcall. split; [|split].
  - apply encode_front_inv in Hcall
      as [(Hhead & -> & -> & _)|(Hhead & x & -> & ->)]; [by left|by right].
  - apply encode_inv in Hcall as [(_ & -> & older & ->)|(x & -> & _ & _ & ->)];
      by eexists.
  - intros first second older ->. apply encode_cache_tail.
Qed.

(** C5, amended. Encoding the empty string divides nothing: the update
    loop has no character to visit and hands the dict back unchanged, the
    miss path returns the scalar of the untouched interval (0, 1), and no
    call of [encode] on the empty string ends in [ZeroDivisionError]. *)
Theorem empty_cookie_no_division probabilities cache :
  Counter [] = [] /\
  get_probability [] probabilities = Ok probabilities /\
  encode_miss [] probabilities cache
    = Ok (PyFloat (mul (sub one (midpoint (zero, one))) ten), probabilities,
          PyStr [] :: PyFloat (mul (sub one (midpoint (zero, one))) ten) :: cache) /\
  encode [] probabilities cache <> Raise ZeroDivisionError.
Proof.
  split; [done|]. split; [done|]. split; [done|].
  apply encode_no_division_fault.
Qed.

(** C7. The update of the model is the one the specification words: the
    counter lists the distinct characters in first-counted order with
    their numbers of occurrences, [get_probability] returns, and in the
    dict it returns a character of the string has its slot
    [(start, end)], [end = start + count / total], rescaled around its
    previous interval when it had one, while a character that is not in
    the string keeps the entry it had.  This holds for every string, the
    non-empty ones in particular. *)
Theorem get_probability_update cookie probabilities :
  Counter cookie = (fun c => (c, occurrences c cookie)) <$> distinct_chars cookie /\
  exists probabilities',
    get_probability cookie probabilities = Ok probabilities' /\
    (forall c, probabilities' !! c = spec_update cookie probabilities c) /\
    (forall c, c ∉ cookie -> probabilities' !! c = probabilities !! c).
Proof.
  split; [apply Counter_spec|].
  destruct (get_probability_spec cookie probabilities) as (p' & Hget & Hlookup).
  exists p'. split; [done|]. split; [done|].
  intros c Hc. rewrite Hlookup. unfold spec_update.
  rewrite assoc_None; [done|].
  rewrite <- item_slots_spec, item_slots_keys, <- Counter_spec.
  by rewrite Counter_keys.
Qed.

End AnyArithmetic.

(** * binary64: the values CPython computes *)

(** A decimal literal stands for the binary64 value nearest to it, as in
    Python. *)
#[local] Set Warnings "-inexact-float".

Section Binary64.
Local Existing Instance binary64.
Local Open Scope float_scope.
Local Open Scope char_scope.

Local Abbreviation ab := (str_of "ab").
Local Abbreviation ba := (str_of "ba").
Local Abbreviation nine := (str_of "abcdefghi").
Local Abbreviation sixteen_i := (str_of "iiiiiiiiiiiiiiii").

(** C8. The first call of a stream on "ab": the counter is a:1, b:1, the
    model becomes a -> (0.0, 0.5), b -> (0.5, 1.0), the interval ends at
    start 0.25 and size 0.25, and the call returns exactly 6.25. *)
Theorem first_call_ab :
  Counter ab = [("a", 1%nat); ("b", 1%nat)] /\
  get_probability (A:=binary64) ab ∅
    = Ok (list_to_map [("a", (0, 0.5)); ("b", (0.5, 1))]) /\
  narrow (A:=binary64) ab (list_to_map [("a", (0, 0.5)); ("b", (0.5, 1))])
    = Ok (0.25, 0.25) /\
  encode (A:=binary64) ab ∅ []
    = Ok (PyFloat 6.25, list_to_map [("a", (0, 0.5)); ("b", (0.5, 1))],
          [PyStr ab; PyFloat 6.25]).
Proof. repeat split; vm_compute; reflexivity. Qed.

(** C10. Encoding the empty string with an empty cache, whatever the
    model: the counter is empty, so the loop of [get_probability] runs
    zero times (no division) and returns the model unchanged, the interval
    stays at start 0.0 and size 1.0, and the call returns exactly 5.0. *)
Theorem empty_cookie_scalar (probabilities : gmap ascii (float * float)) :
  Counter [] = [] /\
  get_probability (A:=binary64) [] probabilities = Ok probabilities /\
  narrow (A:=binary64) [] probabilities = Ok (0, 1) /\
  encode (A:=binary64) [] probabilities []
    = Ok (PyFloat 5, probabilities, [PyStr []; PyFloat 5]).
Proof. repeat split; vm_compute; reflexivity. Qed.

(** C2. The module-level [cache] outlives a file: a worker that parses
    the file with the values "ab", "ba" and then a file whose only value
    is "ba" returns, for the second file, the scalar 5.9375 cached from
    the first one, where the same file parsed with an empty cache gives
    6.25. *)
Theorem cache_shared_between_files :
  worker (A:=binary64) [[ab; ba]; [ba]] []
    = Ok ([[PyFloat 6.25; PyFloat 5.9375]; [PyFloat 5.9375]],
          [PyStr ba; PyFloat 5.9375; PyStr ab; PyFloat 6.25]) /\
  parse (A:=binary64) [ba] [] = Ok ([PyFloat 6.25], [PyStr ba; PyFloat 6.25]).
Proof. split; vm_compute; reflexivity. Qed.

(** C1 fails on characters the model already has: after "ab" and then
    "ba" the entries of b and a are (0.25, 0.5) and (0.5, 0.75); they
    leave [0, 0.25) and [0.75, 1] uncovered and their widths sum to 0.5,
    which is further than 1e-9 from 1. *)
Lemma spans_of_known_chars :
  exists p1 c1 v2 p2 c2,
    encode (A:=binary64) ab ∅ [] = Ok (PyFloat 6.25, p1, c1) /\
    encode (A:=binary64) ba p1 c1 = Ok (v2, p2, c2) /\
    p2 !! "b" = Some (0.25, 0.5) /\
    p2 !! "a" = Some (0.5, 0.75) /\
    span_sum (A:=binary64) ba p2 = 0.5 /\
    (1e-9 <? abs (span_sum (A:=binary64) ba p2 - 1))%float = true.
Proof. do 5 eexists. repeat split; vm_compute; reflexivity. Qed.

(** Rounding shows in the result: after "abcdefghi" the
    sixteen-character string "iiiiiiiiiiiiiiii" has a midpoint above 1
    and the scalar -2.2204460492503131e-15. *)
Lemma scalar_below_zero :
  exists v1 p1 c1 x p2 c2 st,
    encode (A:=binary64) nine ∅ [] = Ok (v1, p1, c1) /\
    encode (A:=binary64) sixteen_i p1 c1 = Ok (PyFloat x, p2, c2) /\
    narrow (A:=binary64) sixteen_i p2 = Ok st /\
    (1 <? midpoint (A:=binary64) st)%float = true /\
    x = -2.2204460492503131e-15 /\
    (x <? 0)%float = true.
Proof. do 7 eexists. repeat split; vm_compute; reflexivity. Qed.

(** Rounding shows in the model: nine times 1/9 add up to
    1.0000000000000002, the end of the interval of i after "abcdefghi". *)
Lemma interval_end_above_one :
  exists probabilities lo,
    update_all (A:=binary64) [nine] ∅ = Ok probabilities /\
    probabilities !! "i" = Some (lo, 1.0000000000000002) /\
    (1.0000000000000002 <=? 1)%float = false.
Proof. do 2 eexists. repeat split; vm_compute; reflexivity. Qed.

(** C5 fails: the first call of a stream on the empty string returns 5.0;
    it does not end in a division fault. *)
Lemma empty_cookie_returns :
  encode (A:=binary64) [] ∅ [] = Ok (PyFloat 5, ∅, [PyStr []; PyFloat 5]) /\
  encode (A:=binary64) [] ∅ [] <> Raise ZeroDivisionError.
Proof. split; [vm_compute; reflexivity|]. apply encode_no_division_fault. Qed.

(** C6 fails: after the two misses "ab", "ba" the cache holds both pairs,
    four elements, the older pair behind the newer one. *)
Lemma cache_keeps_history :
  exists newdata cache,
    parse (A:=binary64) [ab; ba] [] = Ok (newdata, cache) /\
    cache = [PyStr ba; PyFloat 5.9375; PyStr ab; PyFloat 6.25] /\
    ~ (length cache <= 2)%nat.
Proof.
  do 2 eexists. split; [vm_compute; reflexivity|]. split; [reflexivity|].
  simpl. lia.
Qed.

(** The repeat short-circuit at the first two calls of a stream, "ab"
    twice. *)
Lemma encode_repeat_witness :
  encode (A:=binary64) ab ∅ []
    = Ok (PyFloat 6.25, list_to_map [("a", (0, 0.5)); ("b", (0.5, 1))],
          [PyStr ab; PyFloat 6.25]) /\
  encode (A:=binary64) ab (list_to_map [("a", (0, 0.5)); ("b", (0.5, 1))])
      [PyStr ab; PyFloat 6.25]
    = Ok (PyFloat 6.25, list_to_map [("a", (0, 0.5)); ("b", (0.5, 1))],
          [PyStr ab; PyFloat 6.25]).
Proof.
  split; [vm_compute; reflexivity|].
  apply (encode_repeat (A:=binary64) ab ∅ []). vm_compute; reflexivity.
Defined.

(** The second call of the stream "ab", "ba", a miss. *)
Lemma cache_front_witness :
  encode (A:=binary64) ba (list_to_map [("a", (0, 0.5)); ("b", (0.5, 1))])
      [PyStr ab; PyFloat 6.25]
    = Ok (PyFloat 5.9375,
          list_to_map [("a", (0.5, 0.75)); ("b", (0.25, 0.5))],
          [PyStr ba; PyFloat 5.9375; PyStr ab; PyFloat 6.25]) /\
  ((head [PyStr ab; PyFloat 6.25] = Some (PyStr ba) /\
    [PyStr ba; PyFloat 5.9375; PyStr ab; PyFloat 6.25] = [PyStr ab; PyFloat 6.25] /\
    (list_to_map [("a", (0.5, 0.75)); ("b", (0.25, 0.5))] : gmap ascii (float * float))
      = list_to_map [("a", (0, 0.5)); ("b", (0.5, 1))])
   \/
   (head [PyStr ab; PyFloat 6.25] <> Some (PyStr ba) /\
    [PyStr ba; PyFloat 5.9375; PyStr ab; PyFloat 6.25]
      = PyStr ba :: PyFloat 5.9375 :: [PyStr ab; PyFloat 6.25] /\
    length [PyStr ba; PyFloat 5.9375; PyStr ab; PyFloat 6.25]
      = S (S (length [PyStr ab; PyFloat 6.25])))) /\
  (exists older,
     [PyStr ba; PyFloat 5.9375; PyStr ab; PyFloat 6.25]
       = PyStr ba :: PyFloat 5.9375 :: older) /\
  (forall first second older,
     [PyStr ab; PyFloat 6.25] = first :: second :: older ->
     encode (A:=binary64) ba (list_to_map [("a", (0, 0.5)); ("b", (0.5, 1))])
       [PyStr ab; PyFloat 6.25]
     = behind older
         (encode (A:=binary64) ba (list_to_map [("a", (0, 0.5)); ("b", (0.5, 1))])
            [first; second])).
Proof.
  split; [vm_compute; reflexivity|].
  apply (cache_front (A:=binary64) ba
           (list_to_map [("a", (0, 0.5)); ("b", (0.5, 1))])).
  vm_compute; reflexivity.
Defined.

End Binary64.

(** * Further properties of the encoder *)

Section EncoderMore.
Context {A : Arith}.

Implicit Types (probabilities : gmap ascii (num * num)) (cache : list (pyobj A)).

(** The loop of [arithmetic_encode] either finds every character and
    returns, or meets a character without entry and raises [KeyError]. *)
Lemma narrow_loop_cases probabilities cookie : forall st,
  (for_each (narrow_step probabilities) cookie st = Raise KeyError /\
   exists c, c ∈ cookie /\ probabilities !! c = None)
  \/
  (exists st', for_each (narrow_step probabilities) cookie st = Ok st' /\
   forall c, c ∈ cookie -> is_Some (probabilities !! c)).
Proof.
  induction cookie as [|c rest IH]; intros [istart isize]; simpl.
  - right. eexists. split; [done|]. intros c Hc. by apply elem_of_nil in Hc.
  - destruct (probabilities !! c) as [range|] eqn:Hc; simpl.
    + destruct (IH (add istart (mul isize range.1), mul isize (sub range.2 range.1)))
        as [(Hraise & d & Hd & Hnone)|(st' & Hok & Hall)].
      * left. split; [done|]. exists d. split; [set_solver|done].
      * right. exists st'. split; [done|]. intros d Hd.
        apply elem_of_cons in Hd as [->|Hd]; [by rewrite Hc|by apply Hall].
    + left. split; [done|]. exists c. split; [set_solver|done].
Qed.

(** X1. [arithmetic_encode] called on any dict either returns a float,
    and then every character of the cookie has an entry, or raises
    [KeyError], and then some character of the cookie has none; it raises
    nothing else. *)
Theorem arithmetic_encode_KeyError cookie probabilities :
  (arithmetic_encode cookie probabilities = Raise KeyError /\
   exists c, c ∈ cookie /\ probabilities !! c = None)
  \/
  (exists x, arithmetic_encode cookie probabilities = Ok x /\
   forall c, c ∈ cookie -> is_Some (probabilities !! c)).
Proof.
  unfold arithmetic_encode, narrow.
  destruct (narrow_loop_cases probabilities cookie (zero, one))
    as [(-> & Hmissing)|(st' & -> & Hall)].
  - by left.
  - right. by eexists.
Qed.

(** X2. [get_probability] never removes a key: the keys of the dict it
    returns are the keys it was given together with the characters of the
    cookie. *)
Theorem get_probability_keys cookie probabilities :
  exists probabilities',
    get_probability cookie probabilities = Ok probabilities' /\
    dom probabilities' = dom probabilities ∪ list_to_set cookie.
Proof.
  destruct (get_probability_spec cookie probabilities) as (p' & Hget & Hlookup).
  exists p'. split; [done|].
  apply set_eq. intros c.
  rewrite elem_of_union, !elem_of_dom, elem_of_list_to_set, Hlookup.
  unfold spec_update.
  destruct (decide (c ∈ cookie)) as [Hin|Hnin].
  - destruct (assoc_is_Some c (spec_slots cookie (distinct_chars cookie) zero))
      as [slot ->].
    { rewrite <- item_slots_spec, item_slots_keys, <- Counter_spec.
      by apply Counter_keys. }
    split; [by right|by eexists].
  - rewrite assoc_None.
    { split; [by left|]. by intros [?|?]. }
    rewrite <- item_slots_spec, item_slots_keys, <- Counter_spec.
    by rewrite Counter_keys.
Qed.

Lemma item_slots_chained total items : forall start,
  chained start (item_slots total items start).*2.
Proof.
  induction items as [|[c n] rest IH]; intros start; simpl; [done|].
  split; [done|]. apply IH.
Qed.

(** X3. In any arithmetic, binary64 included: when no character of the
    cookie is in the dict yet, the intervals stored for its distinct
    characters, in first-counted order, follow one another without gap or
    overlap: the first starts at 0.0 and each starts at exactly the float
    the one before ends at. *)
Theorem new_chars_chained cookie probabilities :
  (forall c, c ∈ cookie -> probabilities !! c = None) ->
  exists probabilities' ivs,
    get_probability cookie probabilities = Ok probabilities' /\
    Forall2 (fun c iv => probabilities' !! c = Some iv) (distinct_chars cookie) ivs /\
    chained zero ivs.
Proof.
  intros Hnew.
  destruct (get_probability_spec cookie probabilities) as (p' & Hget & Hlookup).
  set (slots := item_slots (length cookie) (Counter cookie) zero).
  assert (slots.*1 = distinct_chars cookie) as Hkeys.
  { unfold slots. rewrite item_slots_keys, Counter_spec, <- list_fmap_compose.
    apply list_fmap_id. }
  exists p', slots.*2. split; [done|]. split; [|apply item_slots_chained].
  rewrite <- Hkeys. apply assoc_Forall2.
  - rewrite Hkeys. apply first_seen_NoDup.
  - intros c Hc. rewrite Hlookup. unfold spec_update.
    rewrite <- item_slots_spec, <- Counter_spec. fold slots.
    destruct (assoc_is_Some c slots Hc) as [[lo hi] ->].
    rewrite Hnew; [done|].
    rewrite Hkeys in Hc. by apply first_seen_elem in Hc as [? _].
Qed.

(** X4. [encode] looks at the first two elements of the cache and at
    nothing behind them: what it returns, raises and stores with the cache
    [first :: second :: older] is what it does with the cache
    [[first; second]], with [older] carried behind the resulting cache. *)
Theorem encode_reads_front cookie probabilities first second older :
  encode cookie probabilities (first :: second :: older)
  = behind older (encode cookie probabilities [first; second]).
Proof. apply encode_cache_tail. Qed.

(** What [encode] leaves in a cache of at least two elements has at
    least two elements. *)
Lemma encode_front_kept cookie probabilities first second value probabilities' cache' :
  encode cookie probabilities [first; second] = Ok (value, probabilities', cache') ->
  exists first' second' rest, cache' = first' :: second' :: rest.
Proof.
  intros Hcall.
  apply encode_inv in Hcall as [(_ & -> & _)|(x & _ & _ & _ & ->)]; by eauto.
Qed.

(** The same for the loop of [parse]. *)
Lemma encode_rows_reads_front rows : forall probabilities first second older,
  encode_rows rows probabilities (first :: second :: older)
  = behind older (encode_rows rows probabilities [first; second]).
Proof.
  induction rows as [|cookie rest IH]; intros probabilities first second older;
    [done|].
  cbn [encode_rows]. rewrite encode_cache_tail.
  destruct (encode cookie probabilities [first; second])
    as [[[value p1] c1]|e] eqn:Hcall; [|done].
  destruct (encode_front_kept _ _ _ _ _ _ _ Hcall) as (f1 & s1 & r1 & ->).
  cbn. rewrite (IH p1 f1 s1 (r1 ++ older)), (IH p1 f1 s1 r1).
  destruct (encode_rows rest p1 [f1; s1]) as [[newdata c2]|e]; [|done].
  cbn. by rewrite <- app_assoc.
Qed.

(** X5. A file whose first value is not the cookie at the front of the
    cache is encoded as with an empty cache: [parse] returns the same
    values (or raises the same), and the cache it leaves is the one it
    would have left, followed by the cache it found. *)
Theorem parse_as_fresh cookie rows cache :
  head cache <> Some (PyStr cookie) ->
  parse (cookie :: rows) cache = behind cache (parse (cookie :: rows) []).
Proof.
  intros Hfront. unfold parse. cbn [encode_rows].
  rewrite !encode_unfold.
  assert (match cache with
          | [] => encode_miss cookie ∅ cache
          | first :: _ =>
              if str_eq cookie first then
                match cache !! 1 with
                | Some value => Ok (value, ∅, cache)
                | None => Raise IndexError
                end
              else encode_miss cookie ∅ cache
          end = encode_miss cookie ∅ cache) as ->.
  { destruct cache as [|first rest]; [done|].
    destruct (str_eq cookie first) eqn:Heq; [|done].
    apply str_eq_true in Heq as ->. by destruct Hfront. }
  unfold encode_miss, behind.
  destruct (get_probability cookie ∅) as [p'|]; [|done]. cbn.
  destruct (arithmetic_encode cookie p') as [x|]; [|done]. cbn.
  rewrite (encode_rows_reads_front rows p' (PyStr cookie) (PyFloat x) cache).
  unfold behind.
  by destruct (encode_rows rows p' [PyStr cookie; PyFloat x]) as [[newdata c2]|e].
Qed.

(** A second call on the same cookie is a hit. *)
Lemma encode_again cookie probabilities cache value probabilities' cache' :
  encode cookie probabilities cache = Ok (value, probabilities', cache') ->
  encode cookie probabilities' cache' = Ok (value, probabilities', cache').
Proof.
  intros Hfirst.
  apply encode_inv in Hfirst as [(_ & -> & older & ->)|(x & -> & _ & _ & ->)];
    by rewrite encode_unfold, str_eq_refl.
Qed.

(** X6. A value that comes twice in a row counts once: when [parse]
    returns [value :: newdata] for the rows [cookie :: rows], it returns
    [value :: value :: newdata] for [cookie :: cookie :: rows], and leaves
    the same cache; no other value of the file is changed by the
    repetition. *)
Theorem repeated_row_collapses cookie rows cache value newdata cache' :
  parse (cookie :: rows) cache = Ok (value :: newdata, cache') ->
  parse (cookie :: cookie :: rows) cache = Ok (value :: value :: newdata, cache').
Proof.
  unfold parse. cbn [encode_rows]. intros Hrows.
  destruct (encode cookie ∅ cache) as [[[v p1] c1]|e] eqn:Hcall; [|done].
  cbn in Hrows |- *. rewrite (encode_again _ _ _ _ _ _ Hcall). cbn.
  destruct (encode_rows rows p1 c1) as [[out c2]|e]; [|done].
  cbn in Hrows |- *. by injection Hrows as -> -> ->.
Qed.

(** The files of a worker, from a cache of pairs. *)
Lemma worker_returns_from files : forall cache,
  paired cache ->
  exists results cache',
    worker files cache = Ok (results, cache') /\
    Forall2 (fun rows newdata =>
               length newdata = length rows /\
               Forall (fun value => exists x, value = PyFloat x) newdata)
            files results /\
    paired cache'.
Proof.
  induction files as [|rows rest IH]; intros cache Hpaired.
  - exists [], cache. split; [done|]. split; [constructor|done].
  - destruct (encode_rows_returns rows ∅ cache Hpaired)
      as (newdata & c1 & Hparse & Hlen & Hfloats & Hpaired1).
    destruct (IH c1 Hpaired1) as (results & c2 & Hrest & Hall & Hpaired2).
    exists (newdata :: results), c2. cbn [worker]. unfold parse. rewrite Hparse.
    cbn. rewrite Hrest. cbn. split; [done|]. split; [|done].
    by constructor.
Qed.

(** X7. A worker started with an empty cache raises no [KeyError],
    [ZeroDivisionError] or [IndexError], whatever the files it is given
    (empty values included): for every file it returns one float per row,
    the length [parse] needs for the new column. *)
Theorem worker_returns files :
  exists results cache,
    worker files [] = Ok (results, cache) /\
    Forall2 (fun rows newdata =>
               length newdata = length rows /\
               Forall (fun value => exists x, value = PyFloat x) newdata)
            files results.
Proof.
  destruct (worker_returns_from files [] paired_nil) as (results & c & ? & ? & _).
  by exists results, c.
Qed.

End EncoderMore.

(** * Around the encoder: main, get_cookies, draw *)

Section MainFacts.
Local Open Scope Z_scope.

(** X11. Whatever [--requests] is given (nothing, 0, a negative number,
    a number out of range), the number of requests [main] passes on lies
    in [10, 200]: it is the number given when that lies in [10, 200] and
    50 otherwise. *)
Theorem requests_in_range (args_requests : option Z) :
  10 <= requests_to_make args_requests <= 200 /\
  requests_to_make args_requests
  = match args_requests with
    | Some requests =>
        if bool_decide (10 <= requests <= 200) then requests else 50
    | None => 50
    end.
Proof.
  unfold requests_to_make. destruct args_requests as [requests|]; [|split; [lia|done]].
  destruct (Z.eqb_spec requests 0) as [->|Hnz].
  { split; [lia|]. by rewrite bool_decide_eq_false_2 by lia. }
  destruct (Z.ltb_spec requests 10); simpl.
  { split; [lia|]. by rewrite bool_decide_eq_false_2 by lia. }
  destruct (Z.ltb_spec 200 requests).
  { split; [lia|]. by rewrite bool_decide_eq_false_2 by lia. }
  split; [lia|]. by rewrite bool_decide_eq_true_2 by lia.
Qed.

End MainFacts.

Section PayloadFacts.




End PayloadFacts.

Section DrawFacts.

Lemma without_suffix_csv (stem : str) : without_suffix (stem ++ str_of ".csv") = stem.
Proof.
  unfold without_suffix. rewrite length_app. simpl.
  replace (length stem + 4 - 4) with (length stem) by lia.
  apply take_app_length.
Qed.

Lemma split_cases sep s :
  ((sep ∉ s) /\ split sep s = [s]) \/
  (sep ∈ s /\ exists first second more, split sep s = first :: second :: more).
Proof.
  induction s as [|c rest IH]; simpl.
  - left. split; [set_solver|done].
  - case_bool_decide as Hc.
    + subst c. right. split; [set_solver|].
      destruct IH as [(_ & ->)|(_ & a & b & more & ->)]; by eauto.
    + destruct IH as [(Hnin & ->)|(Hin & a & b & more & ->)].
      * left. split; [set_solver|done].
      * right. split; [set_solver|by eauto].
Qed.

Lemma split_at_first sep before after :
  sep ∉ before ->
  split sep (before ++ sep :: after) = before :: split sep after.
Proof.
  induction before as [|c rest IH]; simpl; intros Hnin.
  - by rewrite bool_decide_eq_true_2.
  - rewrite bool_decide_eq_false_2 by set_solver.
    rewrite IH by set_solver. done.
Qed.

(** X13. For a file named by [get_cookies], [domain_timestamp/key.csv],
    [draw] saves the picture under the same name with the suffix [.png]
    and, when the domain, the timestamp and the cookie name contain no
    slash, titles it with the cookie name. *)
Theorem draw_names (domain timestamp key : str) :
  "/"%char ∉ domain -> "/"%char ∉ timestamp -> "/"%char ∉ key ->
  imagefile (csv_filename (output_path domain timestamp) key)
    = output_path domain timestamp ++ key ++ str_of ".png" /\
  title (csv_filename (output_path domain timestamp) key)
    = Ok (key ++ str_of " Values Over Time").
Proof.
  intros Hdomain Htime Hkey.
  unfold imagefile, title, csv_filename.
  rewrite app_assoc, without_suffix_csv. split; [by rewrite <- app_assoc|].
  unfold output_path.
  replace ((domain ++ str_of "_" ++ timestamp ++ str_of "/") ++ key)
    with ((domain ++ str_of "_" ++ timestamp) ++ "/"%char :: key)
    by (by rewrite <- !app_assoc).
  rewrite split_at_first.
  - destruct (split_cases "/"%char key) as [(_ & ->)|(Hin & _)]; [done|].
    by destruct Hkey.
  - rewrite !elem_of_app. intros [?|[Hu|?]]; [done| |done].
    apply list_elem_of_singleton in Hu. discriminate.
Qed.

(** X14. [draw] fails with [IndexError] on the title exactly when the
    file name without its last four characters contains no slash. *)
Theorem title_IndexError (filename : str) :
  title filename = Raise IndexError <-> "/"%char ∉ without_suffix filename.
Proof.
  unfold title.
  destruct (split_cases "/"%char (without_suffix filename))
    as [(Hnin & ->)|(Hin & a & b & more & ->)]; simpl.
  - split; [done|done].
  - split; [done|]. intros Hnin. by destruct Hnin.
Qed.

End DrawFacts.

Section GetCookiesFacts.
Context {datetime : Type}.

Implicit Types (files : gmap str (list (datetime * str))) (c_files : list str).

Lemma csv_filename_inj path key key' :
  csv_filename path key = csv_filename path key' -> key = key'.
Proof.
  unfold csv_filename. intros Heq.
  apply app_inv_head in Heq. by apply app_inv_tail in Heq.
Qed.

(** The rows one response writes for a cookie name. *)
Local Abbreviation rows_in key cookies :=
  (omap (fun item : str * str * datetime =>
           let '(k, value, now) := item in
           if bool_decide (k = key) then Some (now, value) else None) cookies).

Lemma write_cookies_inv path cookies : forall c_files files,
  NoDup c_files ->
  (forall f, f ∈ c_files <-> is_Some (files !! f)) ->
  exists c_files' files',
    fold_left (write_cookie path) cookies (c_files, files) = (c_files', files') /\
    NoDup c_files' /\
    (forall f, f ∈ c_files' <-> is_Some (files' !! f)) /\
    (forall key,
       default [] (files' !! csv_filename path key)
       = default [] (files !! csv_filename path key) ++ rows_in key cookies).
Proof.
  induction cookies as [|[[k value] now] rest IH]; intros c_files files Hnd Hdom.
  - exists c_files, files. repeat split; auto; try apply Hdom.
    intros key. by rewrite app_nil_r.
  - cbn [fold_left write_cookie].
    set (filename := csv_filename path k).
    set (c_files1 := if bool_decide (filename ∈ c_files) then c_files
                     else c_files ++ [filename]).
    set (files1 := <[filename := default [] (files !! filename) ++ [(now, value)]]> files).
    destruct (IH c_files1 files1) as (cf & fs & Hfold & Hnd' & Hdom' & Hrows).
    + unfold c_files1. case_bool_decide as Hin; [done|].
      apply NoDup_app. split; [done|]. split; [|apply NoDup_singleton].
      intros f Hf Hf'. apply list_elem_of_singleton in Hf'. by subst.
    + intros f. unfold c_files1, files1.
      destruct (decide (f = filename)) as [->|Hne].
      * rewrite lookup_insert_eq. split; [by eauto|]. intros _.
        case_bool_decide; [done|]. set_solver.
      * rewrite lookup_insert_ne by done. rewrite <- Hdom.
        case_bool_decide; [done|]. set_solver.
    + exists cf, fs. split; [done|]. split; [done|]. split; [done|].
      intros key. rewrite Hrows. unfold files1. cbn [omap list_omap].
      case_bool_decide as Hk.
      * subst k. fold filename. rewrite lookup_insert_eq. cbn.
        by rewrite <- app_assoc.
      * rewrite lookup_insert_ne; [done|].
        intros Heq. apply csv_filename_inj in Heq. done.
Qed.

Lemma get_cookies_inv path responses : forall c_files files,
  NoDup c_files ->
  (forall f, f ∈ c_files <-> is_Some (files !! f)) ->
  exists c_files' files',
    get_cookies_loop path responses (c_files, files) = (c_files', files') /\
    NoDup c_files' /\
    (forall f, f ∈ c_files' <-> is_Some (files' !! f)) /\
    (forall key,
       default [] (files' !! csv_filename path key)
       = default [] (files !! csv_filename path key) ++ rows_of key responses).
Proof.
  induction responses as [|cookies rest IH]; intros c_files files Hnd Hdom.
  - exists c_files, files. repeat split; auto; try apply Hdom.
    intros key. by rewrite app_nil_r.
  - destruct (write_cookies_inv path cookies c_files files Hnd Hdom)
      as (cf1 & fs1 & Hfold & Hnd1 & Hdom1 & Hrows1).
    destruct (IH cf1 fs1 Hnd1 Hdom1) as (cf & fs & Hloop & Hnd' & Hdom' & Hrows).
    exists cf, fs. unfold get_cookies_loop in *. cbn [fold_left].
    rewrite Hfold. split; [done|]. split; [done|]. split; [done|].
    intros key. rewrite Hrows, Hrows1. unfold rows_of. cbn [concat].
    by rewrite omap_app, app_assoc.
Qed.

(** X15. After the request loop of [get_cookies], started with no file
    recorded and an empty directory: [c_files] names every file written
    and no other, each once, so the pool parses every file exactly once;
    and the file of a cookie name holds one row per response that had
    that cookie, in the order of the requests, with the value it had. *)
Theorem get_cookies_files (path : str) (responses : list (list (str * str * datetime))) :
  exists c_files files,
    get_cookies_loop path responses ([], ∅) = (c_files, files) /\
    NoDup c_files /\
    (forall f, f ∈ c_files <-> is_Some (files !! f)) /\
    (forall key,
       default [] (files !! csv_filename path key) = rows_of key responses).
Proof.
  destruct (get_cookies_inv path responses [] ∅) as (cf & fs & Hloop & Hnd & Hdom & Hrows).
  - constructor.
  - intros f. rewrite lookup_empty. split; [set_solver|by intros [? ?]].
  - exists cf, fs. split; [done|]. split; [done|]. split; [done|].
    intros key. rewrite Hrows. by rewrite lookup_empty.
Qed.

End GetCookiesFacts.

(** * Instances of the properties above that have a premise *)

Section Instances.
Local Existing Instance binary64.
Local Open Scope float_scope.
Local Open Scope char_scope.

Local Abbreviation ab := (str_of "ab").
Local Abbreviation ba := (str_of "ba").
Local Abbreviation nine := (str_of "abcdefghi").

(** The first update of a stream on "abcdefghi", in binary64. *)
Lemma new_chars_chained_witness :
  (forall c, c ∈ nine -> (∅ : gmap ascii (float * float)) !! c = None) /\
  exists probabilities' ivs,
    get_probability (A:=binary64) nine ∅ = Ok probabilities' /\
    Forall2 (fun c iv => probabilities' !! c = Some iv) (distinct_chars nine) ivs /\
    chained (A:=binary64) zero ivs.
Proof.
  split; [intros c _; apply lookup_empty|].
  apply (new_chars_chained (A:=binary64)). intros c _. apply lookup_empty.
Defined.

(** A file with the single value "ba", parsed after the pair of "ab" was
    cached. *)
Lemma parse_as_fresh_witness :
  head [PyStr ab; PyFloat 6.25] <> Some (PyStr ba) /\
  parse (A:=binary64) [ba] [PyStr ab; PyFloat 6.25]
    = behind [PyStr ab; PyFloat 6.25] (parse (A:=binary64) [ba] []).
Proof.
  split; [discriminate|].
  apply (parse_as_fresh (A:=binary64)). discriminate.
Defined.

(** The stream "ab", "ba" with its first value doubled. *)
Lemma repeated_row_collapses_witness :
  parse (A:=binary64) [ab; ba] []
    = Ok ([PyFloat 6.25; PyFloat 5.9375],
          [PyStr ba; PyFloat 5.9375; PyStr ab; PyFloat 6.25]) /\
  parse (A:=binary64) [ab; ab; ba] []
    = Ok ([PyFloat 6.25; PyFloat 6.25; PyFloat 5.9375],
          [PyStr ba; PyFloat 5.9375; PyStr ab; PyFloat 6.25]).
Proof.
  split; [vm_compute; reflexivity|].
  apply (repeated_row_collapses (A:=binary64)). vm_compute; reflexivity.
Defined.

(** The file of the cookie PHPSESSID of example.com. *)
Lemma draw_names_witness :
  ("/" ∉ str_of "example") /\
  ("/" ∉ str_of "220523_101500") /\
  ("/" ∉ str_of "PHPSESSID") /\
  imagefile (csv_filename (output_path (str_of "example") (str_of "220523_101500"))
               (str_of "PHPSESSID"))
    = output_path (str_of "example") (str_of "220523_101500")
        ++ str_of "PHPSESSID" ++ str_of ".png" /\
  title (csv_filename (output_path (str_of "example") (str_of "220523_101500"))
           (str_of "PHPSESSID"))
    = Ok (str_of "PHPSESSID" ++ str_of " Values Over Time").
Proof.
  assert (forall s : str, bool_decide ("/" ∉ s) = true -> "/" ∉ s) as Hdec
    by (intros s; apply bool_decide_eq_true_1).
  split; [by apply Hdec|]. split; [by apply Hdec|]. split; [by apply Hdec|].
  apply draw_names; by apply Hdec.
Defined.

End Instances.
